(** * styxdefs-js: runner contract, dry runner, global runner registry and
      runtime error, embedded in Rocq.

    Source modules covered:
    - the types module ([./types]): interfaces [Execution], [Metadata],
      [Runner] and the class [StyxRuntimeError];
    - [src/dryRunner.ts]: the class [DryRunner];
    - the global state module: the variable [STYX_GLOBAL_RUNNER] with
      [getGlobalRunner] and [setGlobalRunner].

    JavaScript objects are compared by identity, and [DryRunner] stores the
    references it is handed, so objects live in a store indexed by
    locations and a reference is a location.  Strings are primitive values
    and are modelled by [string]. *)

From Stdlib Require Import ZArith String Ascii List DecimalString DecimalZ.
From stdpp Require Import gmap strings.

Local Open Scope string_scope.

(** ** String primitives of the host language *)

Module JS.

(** The three characters the error message inspects, and the line break
    and the backslash it emits. *)
Definition space : ascii := "032"%char.
Definition dquote : ascii := "034"%char.
Definition squote : ascii := "039"%char.
Definition backslash : ascii := "092"%char.
Definition newline : ascii := "010"%char.

Definition str (c : ascii) : string := String c EmptyString.

(** [s.includes(search)]: is [search] a substring of [s]? *)
Fixpoint includes (s search : string) : bool :=
  String.prefix search s ||
  match s with
  | EmptyString => false
  | String _ s' => includes s' search
  end.

(** [s.replace(/c/g, by)] for a pattern made of the single literal
    character [c]: every occurrence of [c], from left to right, is
    replaced by [by].  ([by] is taken literally: the replacement used in
    the source holds no [$].) *)
Fixpoint replace_global (c : ascii) (by_ : string) (s : string) : string :=
  match s with
  | EmptyString => EmptyString
  | String a s' =>
      if Ascii.eqb a c
      then by_ ++ replace_global c by_ s'
      else String a (replace_global c by_ s')
  end.

(** [xs.join(sep)] on an array of strings. *)
Fixpoint join (sep : string) (xs : list string) : string :=
  match xs with
  | [] => EmptyString
  | [x] => x
  | x :: xs' => x ++ sep ++ join sep xs'
  end.

(** [Number.isSafeInteger(n)] on an integer: the integers every one of
    which a number holds exactly, those of absolute value at most
    2^53 - 1. *)
Definition isSafeInteger (n : Z) : bool :=
  (Z.abs n <=? 2 ^ 53 - 1)%Z.

(** [`${n}`] for a number [n].  Return codes are process exit statuses:
    integers, for which the conversion gives the decimal numeral, with a
    leading minus sign below zero.  The model stands for the conversion of
    the source on the safe integers ([isSafeInteger]) only: a number of
    larger magnitude is printed with rounded digits, or with an exponent
    from 10^21 on, and fractions and [NaN] are numbers too. *)
Definition number_toString (n : Z) : string :=
  NilZero.string_of_int (Z.to_int n).

(** [s.toString()] on a primitive string. *)
Definition string_toString (s : string) : string := s.

End JS.

(** ** [StyxRuntimeError] (types module) *)

Record StyxRuntimeError := {
  message : string;
  name : string;
  returnCode : option Z;
  commandArgs : option (list string)
}.

(** The arrow function handed to [commandArgs.map]. *)
Definition quoteArg (arg : string) : string :=
  if JS.includes arg (JS.str JS.space)
     || JS.includes arg (JS.str JS.dquote)
     || JS.includes arg (JS.str JS.squote)
  then JS.str JS.dquote
       ++ JS.replace_global JS.dquote (String JS.backslash (JS.str JS.dquote)) arg
       ++ JS.str JS.dquote
  else arg.

(** The value of the local [message] when [super(message)] is reached.
    [None] stands for an argument that is [undefined]. *)
Definition buildMessage (returnCode : option Z)
    (commandArgs : option (list string)) (messageExtra : option string) : string :=
  let message :=
    match returnCode with
    | Some code => "Command failed with return code " ++ JS.number_toString code ++ "."
    | None => "Command failed."
    end in
  let message :=
    match commandArgs with
    | Some args =>
        message ++ JS.str JS.newline ++ "- Command args: "
                ++ JS.join " " (map quoteArg args)
    | None => message
    end in
  let message :=
    match messageExtra with
    | Some extra => message ++ JS.str JS.newline ++ extra
    | None => message
    end in
  message.

(** [new StyxRuntimeError(returnCode, commandArgs, messageExtra)]. *)
Definition StyxRuntimeError_new (returnCode : option Z)
    (commandArgs : option (list string)) (messageExtra : option string)
  : StyxRuntimeError :=
  {| message := buildMessage returnCode commandArgs messageExtra;
     name := "StyxRuntimeError";
     returnCode := returnCode;
     commandArgs := commandArgs |}.

(** ** The object store *)

(** A reference to an object. *)
Abbreviation loc := positive (only parsing).

(** [Metadata] (types module); the two optional members are [None] when
    absent. *)
Record Metadata := {
  id : string;
  meta_name : string;
  package : string;
  citations : option (list string);
  container_image_tag : option string
}.

(** The members of a [DryRunner] (src/dryRunner.ts); [None] is [null].
    [lastCargs] refers to a [string[]], [lastMetadata] to a [Metadata],
    [lastParams] to any object. *)
Record DryRunner := {
  lastCargs : option loc;
  lastMetadata : option loc;
  lastParams : option loc
}.

(** What a location can hold: a dry runner, an array of strings (an
    argument vector), a metadata record, or an object of some other shape
    (a parameter record, a runner of another class), kept as its
    properties. *)
Inductive object :=
| ODryRunner (d : DryRunner)
| OArray (xs : list string)
| OMetadata (m : Metadata)
| OObject (props : gmap string string).

(** The state of the program: the store and the module-level variable
    [STYX_GLOBAL_RUNNER] of the global state module. *)
Record State := {
  heap : gmap loc object;
  STYX_GLOBAL_RUNNER : option loc
}.

(** Computations that read and write the state and may fail ([None]): the
    only failure of the model is a method of [DryRunner] called on a
    receiver that is not a [DryRunner], which the types of the source
    exclude. *)
Definition M (A : Type) : Type := State -> option (A * State).

Definition ret {A} (a : A) : M A := fun s => Some (a, s).

Definition bind {A B} (m : M A) (k : A -> M B) : M B :=
  fun s => match m s with
           | Some (a, s') => k a s'
           | None => None
           end.

Definition throw {A} : M A := fun _ => None.

Notation "'let*' x ':=' m 'in' k" := (bind m (fun x => k))
  (at level 10, x name, m at level 100, k at level 200).
Notation "m ';;' k" := (bind m (fun _ => k))
  (at level 100, k at level 200, right associativity).

(** Reading [this] as a [DryRunner], and writing it back. *)
Definition getThis (this : loc) : M DryRunner :=
  fun s => match heap s !! this with
           | Some (ODryRunner d) => Some (d, s)
           | _ => None
           end.

Definition putThis (this : loc) (d : DryRunner) : M unit :=
  fun s => Some (tt, {| heap := <[this := ODryRunner d]> (heap s);
                        STYX_GLOBAL_RUNNER := STYX_GLOBAL_RUNNER s |}).

(** Allocation of an object at a location the store does not use yet. *)
Definition alloc (o : object) : M loc :=
  fun s => let l := fresh (dom (heap s)) in
           Some (l, {| heap := <[l := o]> (heap s);
                       STYX_GLOBAL_RUNNER := STYX_GLOBAL_RUNNER s |}).

Definition readGlobal : M (option loc) :=
  fun s => Some (STYX_GLOBAL_RUNNER s, s).

Definition writeGlobal (r : option loc) : M unit :=
  fun s => Some (tt, {| heap := heap s; STYX_GLOBAL_RUNNER := r |}).

(** A callback [(output: string) => void]: it may do anything to the
    state, or throw. *)
Definition handler : Type := string -> M unit.

(** ** [DryRunner] (src/dryRunner.ts) *)

(** [new DryRunner()]: the three members are [null]. *)
Definition DryRunner_init : DryRunner :=
  {| lastCargs := None; lastMetadata := None; lastParams := None |}.

Definition DryRunner_new : M loc := alloc (ODryRunner DryRunner_init).

(** [startExecution(metadata)]. *)
Definition startExecution (this : loc) (metadata : loc) : M loc :=
  let* d := getThis this in
  putThis this {| lastCargs := lastCargs d;
                  lastMetadata := Some metadata;
                  lastParams := lastParams d |} ;;
  ret this.

(** [inputFile(hostFile, resolveParent = false, mutable = false)]; an
    omitted flag is [None]. *)
Definition inputFile (this : loc) (hostFile : string)
    (resolveParent mutable : option bool) : M string :=
  let resolveParent := default false resolveParent in
  let mutable := default false mutable in
  ret (JS.string_toString hostFile).

(** [outputFile(localFile, optional = false)]. *)
Definition outputFile (this : loc) (localFile : string)
    (optional : option bool) : M string :=
  let optional := default false optional in
  ret localFile.

(** [params(params)]. *)
Definition params (this : loc) (params : loc) : M loc :=
  let* d := getThis this in
  putThis this {| lastCargs := lastCargs d;
                  lastMetadata := lastMetadata d;
                  lastParams := Some params |} ;;
  ret params.

(** [run(cargs, _handleStdout = null, _handleStderr = null)]. *)
Definition run (this : loc) (cargs : loc)
    (_handleStdout _handleStderr : option handler) : M unit :=
  let* d := getThis this in
  putThis this {| lastCargs := Some cargs;
                  lastMetadata := lastMetadata d;
                  lastParams := lastParams d |}.

(** ** The global runner (global state module) *)

(** [getGlobalRunner()]. *)
Definition getGlobalRunner : M loc :=
  let* g := readGlobal in
  match g with
  | None => let* r := DryRunner_new in writeGlobal (Some r)
  | Some _ => ret tt
  end ;;
  let* g' := readGlobal in
  match g' with
  | Some r => ret r
  | None => throw
  end.

(** [setGlobalRunner(runner)]. *)
Definition setGlobalRunner (runner : loc) : M unit :=
  writeGlobal (Some runner).

(** ** Observations used in the statements *)

(** The [DryRunner] stored at [l], if [l] holds one. *)
Definition dryRunnerAt (s : State) (l : loc) : option DryRunner :=
  match heap s !! l with
  | Some (ODryRunner d) => Some d
  | _ => None
  end.

(** The characters of a string. *)
Definition chars (s : string) : list ascii := list_ascii_of_string s.

(** After the specification: an argument "containing spaces or quote
    characters". *)
Definition has_space_or_quote (arg : string) : Prop :=
  exists c, In c (chars arg) /\
            (c = JS.space \/ c = JS.dquote \/ c = JS.squote).

(** After the specification: "internal double quotes escaped", each double
    quote being preceded by a backslash and every other character kept. *)
Definition escape_dquotes (arg : string) : string :=
  string_of_list_ascii
    (flat_map (fun c => if Ascii.eqb c JS.dquote
                        then [JS.backslash; JS.dquote] else [c])
              (chars arg)).

(** A sample state: a dry runner at 1, a metadata record at 2, an argument
    vector at 3, a parameter record at 4, a second dry runner at 5 and a
    second metadata record at 6. *)
Definition sample_metadata : Metadata :=
  {| id := "abc123.bet"; meta_name := "bet"; package := "fsl";
     citations := Some ["cite-a"; "cite-b"];
     container_image_tag := Some "brainlife/fsl:6.0.4" |}.

Definition other_metadata : Metadata :=
  {| id := "def456.flirt"; meta_name := "flirt"; package := "fsl";
     citations := None; container_image_tag := None |}.

Definition sample_state : State :=
  {| heap := <[1%positive := ODryRunner DryRunner_init]>
             (<[2%positive := OMetadata sample_metadata]>
             (<[3%positive := OArray ["tool"; "--flag"; "a b"]]>
             (<[4%positive := OObject (<["in" := "t1.nii"]> ∅)]>
             (<[5%positive := ODryRunner DryRunner_init]>
             (<[6%positive := OMetadata other_metadata]> ∅)))));
     STYX_GLOBAL_RUNNER := None |}.



(** The return code, when there is one, is a safe integer. *)
Definition safe_code (code : option Z) : Prop :=
  match code with
  | Some n => JS.isSafeInteger n = true
  | None => True
  end.

(** * Properties *)

(** ** Strings *)

Section StringFacts.

Lemma prefix_str (c : ascii) (s : string) :
  String.prefix (JS.str c) s = true <->
  exists s', s = String c s'.
Proof.
  destruct s as [|a s']; simpl.
  - split; [discriminate | intros [? ?]; discriminate].
  - destruct (ascii_dec c a) as [->|Hne].
    + split; [eauto | intros _; now destruct s'].
    + split; [discriminate | intros [? [= <- _]]; contradiction].
Qed.

(** Searching for a one-character string is membership of the
    character. *)
Lemma includes_str (c : ascii) (s : string) :
  JS.includes s (JS.str c) = true <-> In c (chars s).
Proof.
  induction s as [|a s IH].
  - simpl. split; [discriminate | intros []].
  - change (JS.includes (String a s) (JS.str c))
      with (String.prefix (JS.str c) (String a s) || JS.includes s (JS.str c)).
    rewrite orb_true_iff, prefix_str, IH. simpl. split.
    + intros [[s' [= -> _]] | H]; auto.
    + intros [-> | H]; eauto.
Qed.

Lemma includes_str_false (c : ascii) (s : string) :
  JS.includes s (JS.str c) = false <-> ~ In c (chars s).
Proof.
  rewrite <- includes_str.
  destruct (JS.includes s (JS.str c)); split; intros H; congruence.
Qed.

(** The two equations of concatenation. *)
Lemma append_nil (s : string) : "" ++ s = s.
Proof. reflexivity. Qed.

Lemma append_cons (a : ascii) (s1 s2 : string) :
  String a s1 ++ s2 = String a (s1 ++ s2).
Proof. reflexivity. Qed.

Lemma string_of_list_ascii_app (l1 l2 : list ascii) :
  string_of_list_ascii (l1 ++ l2)
  = string_of_list_ascii l1 ++ string_of_list_ascii l2.
Proof.
  induction l1 as [|a l1 IH]; simpl; [reflexivity |].
  now rewrite IH, append_cons.
Qed.

Lemma chars_app (s1 s2 : string) : chars (s1 ++ s2) = (chars s1 ++ chars s2)%list.
Proof.
  unfold chars. induction s1 as [|a s1 IH]; [reflexivity |].
  rewrite append_cons. simpl. now rewrite IH.
Qed.

Lemma string_app_assoc (s1 s2 s3 : string) : (s1 ++ s2) ++ s3 = s1 ++ s2 ++ s3.
Proof.
  induction s1 as [|a s1 IH]; [reflexivity |].
  now rewrite !append_cons, IH.
Qed.

(** The replacement distributes over concatenation: it looks at one
    character at a time. *)
Lemma replace_global_app (c : ascii) (by_ s1 s2 : string) :
  JS.replace_global c by_ (s1 ++ s2)
  = JS.replace_global c by_ s1 ++ JS.replace_global c by_ s2.
Proof.
  induction s1 as [|a s1 IH]; [reflexivity |].
  rewrite append_cons. simpl. rewrite IH.
  destruct (Ascii.eqb a c); [|now rewrite append_cons].
  now rewrite string_app_assoc.
Qed.

(** Nothing changes where the character does not occur. *)
Lemma replace_global_absent (c : ascii) (by_ s : string) :
  ~ In c (chars s) -> JS.replace_global c by_ s = s.
Proof.
  induction s as [|a s IH]; simpl; [reflexivity |]. intros H.
  destruct (Ascii.eqb_spec a c) as [->|Hne].
  - exfalso. apply H. now left.
  - rewrite IH; [reflexivity |]. intros Hin. apply H. now right.
Qed.

(** The replacement of the source is the escaping the specification
    describes. *)
Lemma replace_global_escape (arg : string) :
  JS.replace_global JS.dquote (String JS.backslash (JS.str JS.dquote)) arg
  = escape_dquotes arg.
Proof.
  unfold escape_dquotes. induction arg as [|a arg IH]; [reflexivity |].
  cbn [JS.replace_global chars list_ascii_of_string flat_map].
  rewrite string_of_list_ascii_app. fold (chars arg). rewrite <- IH.
  now destruct (Ascii.eqb a JS.dquote).
Qed.

Lemma quoteArg_quoted (arg : string) :
  has_space_or_quote arg ->
  quoteArg arg = JS.str JS.dquote ++ escape_dquotes arg ++ JS.str JS.dquote.
Proof.
  intros (c & Hin & Hc). unfold quoteArg. rewrite replace_global_escape.
  assert (JS.includes arg (JS.str c) = true) as Hinc by now apply includes_str.
  destruct Hc as [-> | [-> | ->]]; rewrite Hinc;
    rewrite ?orb_true_r; reflexivity.
Qed.

Lemma quoteArg_verbatim (arg : string) :
  ~ has_space_or_quote arg -> quoteArg arg = arg.
Proof.
  intros H. unfold quoteArg.
  assert (forall c, (c = JS.space \/ c = JS.dquote \/ c = JS.squote) ->
                    JS.includes arg (JS.str c) = false) as Hno.
  { intros c Hc. apply includes_str_false. intros Hin. apply H. now exists c. }
  rewrite !Hno by auto. reflexivity.
Qed.

(** The rendering of a few arguments. *)
Example quoteArg_plain : quoteArg "--flag" = "--flag".
Proof. reflexivity. Qed.

Example quoteArg_space :
  quoteArg "a b" = JS.str JS.dquote ++ "a b" ++ JS.str JS.dquote.
Proof. reflexivity. Qed.

Example quoteArg_dquote :
  quoteArg ("x" ++ JS.str JS.dquote ++ "y")
  = JS.str JS.dquote ++ "x\" ++ JS.str JS.dquote ++ "y" ++ JS.str JS.dquote.
Proof. reflexivity. Qed.

Example quoteArg_empty : quoteArg "" = "".
Proof. reflexivity. Qed.

End StringFacts.

(** ** The message of [StyxRuntimeError] *)

Section ErrorMessage.

Lemma join_concat (sep : string) (xs : list string) :
  JS.join sep xs = String.concat sep xs.
Proof.
  induction xs as [|x xs IH]; [reflexivity |].
  destruct xs as [|y xs]; [reflexivity |].
  cbn [JS.join String.concat]. cbn [JS.join String.concat] in IH.
  now rewrite IH.
Qed.

(** The layout of the message when an argument vector is given: the
    heading, a line with the rendered arguments, and the extra text on a
    line of its own when there is one. *)
Lemma buildMessage_args (code : option Z) (args : list string)
    (extra : option string) :
  buildMessage code (Some args) extra
  = buildMessage code None None
    ++ JS.str JS.newline ++ "- Command args: "
    ++ String.concat " " (map quoteArg args)
    ++ match extra with
       | Some e => JS.str JS.newline ++ e
       | None => ""
       end.
Proof.
  unfold buildMessage. rewrite join_concat.
  set (line := String.concat " " (map quoteArg args)).
  destruct extra as [e|].
  - now rewrite !string_app_assoc.
  - replace (line ++ "") with line; [reflexivity |].
    clear. induction line as [|a l IH]; [reflexivity |].
    now rewrite append_cons, <- IH.
Qed.

(** C4.  With return code 2 and arguments [tool], [--flag], [a b] the
    message is the line [Command failed with return code 2.] followed by
    the line [- Command args: tool --flag "a b"] (and then the extra
    text, if any, on a further line).  In general the arguments line is
    the rendered arguments joined by single spaces, where an argument
    that contains a space, a double quote or a single quote is put
    between double quotes with each of its double quotes preceded by a
    backslash, and any other argument is rendered verbatim. *)
Theorem error_message_code_and_args :
  (forall extra : option string,
      message (StyxRuntimeError_new (Some 2%Z)
                 (Some ["tool"; "--flag"; "a b"]) extra)
      = "Command failed with return code 2."
        ++ JS.str JS.newline
        ++ "- Command args: tool --flag "
        ++ JS.str JS.dquote ++ "a b" ++ JS.str JS.dquote
        ++ match extra with
           | Some e => JS.str JS.newline ++ e
           | None => ""
           end)
  /\ (forall (code : option Z) (args : list string) (extra : option string),
      message (StyxRuntimeError_new code (Some args) extra)
      = message (StyxRuntimeError_new code None None)
        ++ JS.str JS.newline ++ "- Command args: "
        ++ String.concat " " (map quoteArg args)
        ++ match extra with
           | Some e => JS.str JS.newline ++ e
           | None => ""
           end)
  /\ (forall arg : string,
      has_space_or_quote arg ->
      quoteArg arg = JS.str JS.dquote ++ escape_dquotes arg ++ JS.str JS.dquote)
  /\ (forall arg : string,
      ~ has_space_or_quote arg -> quoteArg arg = arg).
Proof.
  split; [| split; [| split]].
  - intros extra. cbn [message StyxRuntimeError_new].
    rewrite buildMessage_args. reflexivity.
  - intros code args extra. cbn [message StyxRuntimeError_new].
    apply buildMessage_args.
  - apply quoteArg_quoted.
  - apply quoteArg_verbatim.
Qed.

Lemma error_message_code_and_args_witness :
  (has_space_or_quote "a b" /\
   quoteArg "a b" = JS.str JS.dquote ++ escape_dquotes "a b" ++ JS.str JS.dquote)
  /\ (~ has_space_or_quote "tool" /\ quoteArg "tool" = "tool").
Proof.
  assert (has_space_or_quote "a b") as Hq.
  { exists JS.space. split; [simpl; auto | auto]. }
  assert (~ has_space_or_quote "tool") as Hn.
  { intros (c & Hin & Hc). simpl in Hin.
    destruct Hc as [-> | [-> | ->]];
      repeat (destruct Hin as [Hin | Hin]; [discriminate Hin |]);
      exact Hin. }
  split; split; [exact Hq | | exact Hn |].
  - exact (proj1 (proj2 (proj2 error_message_code_and_args)) "a b" Hq).
  - exact (proj2 (proj2 (proj2 error_message_code_and_args)) "tool" Hn).
Defined.

(** C5.  Without return code, argument vector and extra text the message
    is exactly [Command failed.]. *)
Theorem error_message_bare :
  message (StyxRuntimeError_new None None None) = "Command failed.".
Proof. reflexivity. Qed.

(** C9.  An argument with a single quote in it is put between double
    quotes, whatever else it holds; inside, a single quote is copied as
    it is in every context, a double quote gets a backslash before it,
    and an argument without double quotes is copied unchanged: [a'b] is
    rendered as ["a'b"]. *)
Theorem single_quote_wrapped_not_escaped :
  quoteArg ("a" ++ JS.str JS.squote ++ "b")
  = JS.str JS.dquote ++ ("a" ++ JS.str JS.squote ++ "b") ++ JS.str JS.dquote
  /\ (forall arg : string,
      In JS.squote (chars arg) ->
      quoteArg arg
      = JS.str JS.dquote
        ++ JS.replace_global JS.dquote (String JS.backslash (JS.str JS.dquote)) arg
        ++ JS.str JS.dquote)
  /\ (forall pre post : string,
      JS.replace_global JS.dquote (String JS.backslash (JS.str JS.dquote))
        (pre ++ JS.str JS.squote ++ post)
      = JS.replace_global JS.dquote (String JS.backslash (JS.str JS.dquote)) pre
        ++ JS.str JS.squote
        ++ JS.replace_global JS.dquote (String JS.backslash (JS.str JS.dquote)) post)
  /\ (forall pre post : string,
      JS.replace_global JS.dquote (String JS.backslash (JS.str JS.dquote))
        (pre ++ JS.str JS.dquote ++ post)
      = JS.replace_global JS.dquote (String JS.backslash (JS.str JS.dquote)) pre
        ++ JS.str JS.backslash ++ JS.str JS.dquote
        ++ JS.replace_global JS.dquote (String JS.backslash (JS.str JS.dquote)) post)
  /\ (forall arg : string,
      In JS.squote (chars arg) -> ~ In JS.dquote (chars arg) ->
      quoteArg arg = JS.str JS.dquote ++ arg ++ JS.str JS.dquote).
Proof.
  assert (forall arg : string,
      In JS.squote (chars arg) ->
      quoteArg arg
      = JS.str JS.dquote
        ++ JS.replace_global JS.dquote (String JS.backslash (JS.str JS.dquote)) arg
        ++ JS.str JS.dquote) as Hwrap.
  { intros arg Hin. rewrite replace_global_escape. apply quoteArg_quoted.
    exists JS.squote. auto. }
  split; [reflexivity |]. split; [exact Hwrap |].
  split; [| split].
  - intros pre post. now rewrite !replace_global_app.
  - intros pre post. now rewrite !replace_global_app.
  - intros arg Hs Hd. rewrite (Hwrap arg Hs).
    now rewrite replace_global_absent.
Qed.

Lemma single_quote_wrapped_not_escaped_witness :
  In JS.squote (chars ("it's")) /\ ~ In JS.dquote (chars ("it's")) /\
  quoteArg "it's" = JS.str JS.dquote ++ "it's" ++ JS.str JS.dquote.
Proof.
  assert (In JS.squote (chars ("it's"))) as Hs by (simpl; auto).
  assert (~ In JS.dquote (chars ("it's"))) as Hd.
  { simpl. intros H.
    repeat (destruct H as [H | H]; [discriminate H |]). exact H. }
  split; [exact Hs | split; [exact Hd |]].
  exact (proj2 (proj2 (proj2 (proj2 single_quote_wrapped_not_escaped))) "it's" Hs Hd).
Defined.

End ErrorMessage.

(** ** The dry runner *)

Section DryRunnerFacts.

Implicit Types (s : State) (this l x m cargs : loc) (d : DryRunner).

Lemma dryRunnerAt_Some s l d :
  dryRunnerAt s l = Some d <-> heap s !! l = Some (ODryRunner d).
Proof.
  unfold dryRunnerAt.
  destruct (heap s !! l) as [[d'| | |]|]; split; congruence.
Qed.

Lemma getThis_Some s this d :
  dryRunnerAt s this = Some d -> getThis this s = Some (d, s).
Proof.
  intros H%dryRunnerAt_Some. unfold getThis. now rewrite H.
Qed.

(** A method that succeeds was called on a dry runner. *)
Lemma getThis_inv s this d s' :
  getThis this s = Some (d, s') -> s' = s /\ dryRunnerAt s this = Some d.
Proof.
  unfold getThis, dryRunnerAt.
  destruct (heap s !! this) as [[d'| | |]|]; intros [= ]; subst; auto.
Qed.

Lemma dryRunnerAt_putThis_same s this d u s' :
  putThis this d s = Some (u, s') -> dryRunnerAt s' this = Some d.
Proof.
  intros [= _ <-]. unfold dryRunnerAt. simpl. now rewrite lookup_insert_eq.
Qed.

Lemma putThis_other s this d u s' l :
  putThis this d s = Some (u, s') -> l <> this ->
  heap s' !! l = heap s !! l.
Proof.
  intros [= _ <-] Hne. simpl. now rewrite lookup_insert_ne.
Qed.

Lemma putThis_global s this d u s' :
  putThis this d s = Some (u, s') ->
  STYX_GLOBAL_RUNNER s' = STYX_GLOBAL_RUNNER s.
Proof. now intros [= _ <-]. Qed.

(** What the three writing methods compute on a dry runner. *)
Lemma startExecution_eq s this d m :
  dryRunnerAt s this = Some d ->
  startExecution this m s
  = Some (this,
          {| heap := <[this := ODryRunner
                                 {| lastCargs := lastCargs d;
                                    lastMetadata := Some m;
                                    lastParams := lastParams d |}]> (heap s);
             STYX_GLOBAL_RUNNER := STYX_GLOBAL_RUNNER s |}).
Proof.
  intros H. unfold startExecution, bind. now rewrite (getThis_Some _ _ _ H).
Qed.

Lemma params_eq s this d x :
  dryRunnerAt s this = Some d ->
  params this x s
  = Some (x,
          {| heap := <[this := ODryRunner
                                 {| lastCargs := lastCargs d;
                                    lastMetadata := lastMetadata d;
                                    lastParams := Some x |}]> (heap s);
             STYX_GLOBAL_RUNNER := STYX_GLOBAL_RUNNER s |}).
Proof.
  intros H. unfold params, bind. now rewrite (getThis_Some _ _ _ H).
Qed.

Lemma run_eq s this d cargs (onStdout onStderr : option handler) :
  dryRunnerAt s this = Some d ->
  run this cargs onStdout onStderr s
  = Some (tt,
          {| heap := <[this := ODryRunner
                                 {| lastCargs := Some cargs;
                                    lastMetadata := lastMetadata d;
                                    lastParams := lastParams d |}]> (heap s);
             STYX_GLOBAL_RUNNER := STYX_GLOBAL_RUNNER s |}).
Proof.
  intros H. unfold run, bind. now rewrite (getThis_Some _ _ _ H).
Qed.

(** Each of them succeeds only on a dry runner. *)
Lemma startExecution_inv s this m e s' :
  startExecution this m s = Some (e, s') ->
  exists d, dryRunnerAt s this = Some d.
Proof.
  unfold startExecution, bind.
  destruct (getThis this s) as [[d s0]|] eqn:E; [| discriminate].
  apply getThis_inv in E as [_ E]. eauto.
Qed.

Lemma params_inv s this x r s' :
  params this x s = Some (r, s') -> exists d, dryRunnerAt s this = Some d.
Proof.
  unfold params, bind.
  destruct (getThis this s) as [[d s0]|] eqn:E; [| discriminate].
  apply getThis_inv in E as [_ E]. eauto.
Qed.

Lemma run_inv s this cargs (h1 h2 : option handler) u s' :
  run this cargs h1 h2 s = Some (u, s') -> exists d, dryRunnerAt s this = Some d.
Proof.
  unfold run, bind.
  destruct (getThis this s) as [[d s0]|] eqn:E; [| discriminate].
  apply getThis_inv in E as [_ E]. eauto.
Qed.

(** They write the receiver and nothing else. *)
Lemma startExecution_other s this m e s' l :
  startExecution this m s = Some (e, s') -> l <> this ->
  heap s' !! l = heap s !! l.
Proof.
  intros H Hne. destruct (startExecution_inv _ _ _ _ _ H) as [d Hd].
  rewrite (startExecution_eq _ _ _ _ Hd) in H. injection H as _ <-.
  simpl. now rewrite lookup_insert_ne.
Qed.

Lemma params_other s this x r s' l :
  params this x s = Some (r, s') -> l <> this ->
  heap s' !! l = heap s !! l.
Proof.
  intros H Hne. destruct (params_inv _ _ _ _ _ H) as [d Hd].
  rewrite (params_eq _ _ _ _ Hd) in H. injection H as _ <-.
  simpl. now rewrite lookup_insert_ne.
Qed.

Lemma run_other s this cargs (h1 h2 : option handler) u s' l :
  run this cargs h1 h2 s = Some (u, s') -> l <> this ->
  heap s' !! l = heap s !! l.
Proof.
  intros H Hne. destruct (run_inv _ _ _ _ _ _ _ H) as [d Hd].
  rewrite (run_eq _ _ _ _ h1 h2 Hd) in H. simplify_eq/=.
  now rewrite lookup_insert_ne.
Qed.

Lemma dryRunnerAt_heap s s' l :
  heap s' !! l = heap s !! l -> dryRunnerAt s' l = dryRunnerAt s l.
Proof. unfold dryRunnerAt. now intros ->. Qed.

End DryRunnerFacts.

Section DryRunnerClaims.

Implicit Types (s : State) (this l x m cargs : loc) (d : DryRunner).

(** C1 as stated fails: two calls of [startExecution] on one dry runner
    give the same object, so the statement that they always differ is
    false. *)
Lemma startExecution_distinct_counterexample :
  ~ (forall s this m1 m2 e1 s1 e2 s2,
        startExecution this m1 s = Some (e1, s1) ->
        startExecution this m2 s1 = Some (e2, s2) ->
        e1 <> e2).
Proof.
  intros H.
  refine (H sample_state 1%positive 2%positive 6%positive
            1%positive _ 1%positive _ _ _ eq_refl);
    [vm_compute; reflexivity | vm_compute; reflexivity].
Qed.

(** C1, amended.  [startExecution(m)] on a dry runner records [m] and
    returns the dry runner itself.  Hence two calls on the same dry
    runner return the same object, through which the metadata of the
    second call is seen; calls on two different dry runners return
    different objects, and [startExecution], [params] and [run] on the
    one leave the other as it was. *)
Theorem startExecution_returns_receiver :
  (forall s this d m,
      dryRunnerAt s this = Some d ->
      exists s', startExecution this m s = Some (this, s') /\
                 lastMetadata <$> dryRunnerAt s' this = Some (Some m))
  /\ (forall s this m1 m2 e1 s1 e2 s2,
      startExecution this m1 s = Some (e1, s1) ->
      startExecution this m2 s1 = Some (e2, s2) ->
      e1 = this /\ e2 = e1 /\
      lastMetadata <$> dryRunnerAt s2 e1 = Some (Some m2))
  /\ (forall s r1 r2 m1 m2 e1 s1 e2 s2,
      r1 <> r2 ->
      startExecution r1 m1 s = Some (e1, s1) ->
      startExecution r2 m2 s1 = Some (e2, s2) ->
      e1 <> e2 /\
      dryRunnerAt s2 e1 = dryRunnerAt s1 e1 /\
      (forall x r s3, params e2 x s2 = Some (r, s3) ->
                      dryRunnerAt s3 e1 = dryRunnerAt s2 e1) /\
      (forall cargs (h1 h2 : option handler) u s3,
          run e2 cargs h1 h2 s2 = Some (u, s3) ->
          dryRunnerAt s3 e1 = dryRunnerAt s2 e1)).
Proof.
  assert (forall s this m e s',
             startExecution this m s = Some (e, s') ->
             e = this /\ lastMetadata <$> dryRunnerAt s' this = Some (Some m))
    as Hret.
  { intros s this m e s' H.
    destruct (startExecution_inv _ _ _ _ _ H) as [d Hd].
    rewrite (startExecution_eq _ _ _ _ Hd) in H. simplify_eq/=.
    split; [reflexivity |]. unfold dryRunnerAt. simpl.
    now rewrite lookup_insert_eq. }
  split; [| split].
  - intros s this d m Hd. eexists. split.
    + apply (startExecution_eq _ _ _ _ Hd).
    + unfold dryRunnerAt. simpl. now rewrite lookup_insert_eq.
  - intros s this m1 m2 e1 s1 e2 s2 H1 H2.
    destruct (Hret _ _ _ _ _ H1) as [-> _].
    destruct (Hret _ _ _ _ _ H2) as [-> Hm]. auto.
  - intros s r1 r2 m1 m2 e1 s1 e2 s2 Hne H1 H2.
    destruct (Hret _ _ _ _ _ H1) as [-> _].
    destruct (Hret _ _ _ _ _ H2) as [-> _].
    split; [exact Hne |]. split; [| split].
    + apply dryRunnerAt_heap. eapply startExecution_other; eauto.
    + intros x r s3 H. apply dryRunnerAt_heap. eapply params_other; eauto.
    + intros cargs h1 h2 u s3 H. apply dryRunnerAt_heap.
      eapply run_other; eauto.
Qed.

Lemma startExecution_returns_receiver_witness :
  let m1 := 2%positive in
  let m2 := 6%positive in
  let after this m s :=
    {| heap := <[this := ODryRunner
                           {| lastCargs := None;
                              lastMetadata := Some m;
                              lastParams := None |}]> (heap s);
       STYX_GLOBAL_RUNNER := STYX_GLOBAL_RUNNER s |} in
  let s1 := after 1%positive m1 sample_state in
  (dryRunnerAt sample_state 1%positive = Some DryRunner_init /\
   exists s', startExecution 1%positive m1 sample_state
              = Some (1%positive, s') /\
              lastMetadata <$> dryRunnerAt s' 1%positive = Some (Some m1))
  /\ (startExecution 1%positive m1 sample_state = Some (1%positive, s1) /\
      startExecution 1%positive m2 s1
      = Some (1%positive, after 1%positive m2 s1) /\
      lastMetadata <$> dryRunnerAt (after 1%positive m2 s1) 1%positive
      = Some (Some m2))
  /\ (1%positive <> 5%positive /\
      startExecution 5%positive m2 s1
      = Some (5%positive, after 5%positive m2 s1) /\
      dryRunnerAt (after 5%positive m2 s1) 1%positive
      = dryRunnerAt s1 1%positive).
Proof.
  intros m1 m2 after s1.
  assert (dryRunnerAt sample_state 1%positive = Some DryRunner_init) as H
      by (vm_compute; reflexivity).
  assert (startExecution 1%positive m1 sample_state = Some (1%positive, s1))
    as H1 by (vm_compute; reflexivity).
  assert (startExecution 1%positive m2 s1
          = Some (1%positive, after 1%positive m2 s1))
    as H2 by (vm_compute; reflexivity).
  assert (startExecution 5%positive m2 s1
          = Some (5%positive, after 5%positive m2 s1))
    as H3 by (vm_compute; reflexivity).
  assert (1%positive <> 5%positive) as Hne by discriminate.
  split; [| split].
  - split; [exact H |].
    exact (proj1 startExecution_returns_receiver sample_state 1%positive
             DryRunner_init m1 H).
  - split; [exact H1 | split; [exact H2 |]].
    exact (proj2 (proj2 (proj1 (proj2 startExecution_returns_receiver)
                           _ _ _ _ _ _ _ _ H1 H2))).
  - split; [exact Hne | split; [exact H3 |]].
    exact (proj1 (proj2 (proj2 (proj2 startExecution_returns_receiver)
                           _ _ _ _ _ _ _ _ _ Hne H1 H3))).
Defined.

(** C6.  [inputFile] returns the host path it is given, whatever the two
    flags are (given or omitted), and [outputFile] returns the local path
    it is given, whatever the flag is. *)
Theorem dry_runner_paths_identity :
  (forall this (p : string) (resolveParent mutable : option bool) s,
      fst <$> inputFile this p resolveParent mutable s = Some p)
  /\ (forall this (q : string) (optional : option bool) s,
      fst <$> outputFile this q optional s = Some q).
Proof. split; reflexivity. Qed.

(** C7.  [params(x)] on a dry runner returns the reference [x] it was
    given, records it as the last parameters, and changes no object but
    the runner: the object [x] refers to, when it is not the runner
    itself, is the one it was. *)
Theorem dry_runner_params_passthrough s this d x :
  dryRunnerAt s this = Some d ->
  exists s',
    params this x s = Some (x, s') /\
    lastParams <$> dryRunnerAt s' this = Some (Some x) /\
    (forall l, l <> this -> heap s' !! l = heap s !! l).
Proof.
  intros Hd. eexists. split; [apply (params_eq _ _ _ _ Hd) |]. split.
  - unfold dryRunnerAt. simpl. now rewrite lookup_insert_eq.
  - intros l Hne. simpl. now rewrite lookup_insert_ne.
Qed.

Lemma dry_runner_params_passthrough_witness :
  dryRunnerAt sample_state 1%positive = Some DryRunner_init /\
  exists s',
    params 1%positive 4%positive sample_state = Some (4%positive, s') /\
    lastParams <$> dryRunnerAt s' 1%positive = Some (Some 4%positive) /\
    (forall l, l <> 1%positive -> heap s' !! l = heap sample_state !! l).
Proof.
  assert (dryRunnerAt sample_state 1%positive = Some DryRunner_init) as H
      by (vm_compute; reflexivity).
  split; [exact H |].
  exact (dry_runner_params_passthrough sample_state 1%positive
           DryRunner_init 4%positive H).
Defined.

(** C8.  [run(cargs, onStdout, onStderr)] on a dry runner returns
    normally, whatever the two callbacks are (absent, or functions that
    would change the state or throw); afterwards the last recorded
    command is the reference [cargs], no other object has changed, and
    the outcome is the one of the call without callbacks: none of them
    was invoked. *)
Theorem dry_runner_run_records s this d cargs
    (onStdout onStderr : option handler) :
  dryRunnerAt s this = Some d ->
  exists s',
    run this cargs onStdout onStderr s = Some (tt, s') /\
    lastCargs <$> dryRunnerAt s' this = Some (Some cargs) /\
    (forall l, l <> this -> heap s' !! l = heap s !! l) /\
    STYX_GLOBAL_RUNNER s' = STYX_GLOBAL_RUNNER s /\
    run this cargs None None s = Some (tt, s').
Proof.
  intros Hd. eexists. split; [apply (run_eq _ _ _ _ _ _ Hd) |].
  split; [| split; [| split]].
  - unfold dryRunnerAt. simpl. now rewrite lookup_insert_eq.
  - intros l Hne. simpl. now rewrite lookup_insert_ne.
  - reflexivity.
  - apply (run_eq _ _ _ _ _ _ Hd).
Qed.

Lemma dry_runner_run_records_witness :
  dryRunnerAt sample_state 1%positive = Some DryRunner_init /\
  exists s',
    run 1%positive 3%positive (Some (fun _ => throw))
        (Some (fun _ => setGlobalRunner 5%positive)) sample_state
    = Some (tt, s') /\
    lastCargs <$> dryRunnerAt s' 1%positive = Some (Some 3%positive) /\
    (forall l, l <> 1%positive -> heap s' !! l = heap sample_state !! l) /\
    STYX_GLOBAL_RUNNER s' = STYX_GLOBAL_RUNNER sample_state /\
    run 1%positive 3%positive None None sample_state = Some (tt, s').
Proof.
  assert (dryRunnerAt sample_state 1%positive = Some DryRunner_init) as H
      by (vm_compute; reflexivity).
  split; [exact H |].
  exact (dry_runner_run_records sample_state 1%positive DryRunner_init
           3%positive _ _ H).
Defined.



End DryRunnerClaims.

(** ** The global runner *)

Section GlobalRunner.

Implicit Types (s : State) (r : loc).

(** With the variable set, [getGlobalRunner] reads it and changes
    nothing. *)
Lemma getGlobalRunner_set s r :
  STYX_GLOBAL_RUNNER s = Some r -> getGlobalRunner s = Some (r, s).
Proof.
  intros H. unfold getGlobalRunner, bind, readGlobal. rewrite H.
  cbn. now rewrite H.
Qed.

(** With the variable [null], it allocates a dry runner and stores the
    reference. *)
Lemma getGlobalRunner_unset s :
  STYX_GLOBAL_RUNNER s = None ->
  getGlobalRunner s
  = Some (fresh (dom (heap s)),
          {| heap := <[fresh (dom (heap s)) := ODryRunner DryRunner_init]> (heap s);
             STYX_GLOBAL_RUNNER := Some (fresh (dom (heap s))) |}).
Proof.
  intros H. unfold getGlobalRunner, bind, readGlobal. rewrite H. reflexivity.
Qed.

Lemma fresh_unused s : heap s !! fresh (dom (heap s)) = None.
Proof. apply not_elem_of_dom, is_fresh. Qed.

(** C2.  When the variable is still [null], [getGlobalRunner()] returns
    a reference that was not in use, at which a dry runner with its three
    members [null] now stands, and which the variable now holds; no other
    object has changed.  And from any state, a second call that follows
    a first returns the same reference and changes nothing. *)
Theorem getGlobalRunner_lazy_idempotent :
  (forall s,
      STYX_GLOBAL_RUNNER s = None ->
      exists r s',
        getGlobalRunner s = Some (r, s') /\
        heap s !! r = None /\
        dryRunnerAt s' r = Some DryRunner_init /\
        STYX_GLOBAL_RUNNER s' = Some r /\
        (forall l, l <> r -> heap s' !! l = heap s !! l))
  /\ (forall s, exists r s',
        getGlobalRunner s = Some (r, s') /\
        getGlobalRunner s' = Some (r, s')).
Proof.
  split.
  - intros s H. do 2 eexists.
    split; [apply (getGlobalRunner_unset _ H) |].
    split; [apply fresh_unused |].
    split; [unfold dryRunnerAt; simpl; now rewrite lookup_insert_eq |].
    split; [reflexivity |].
    intros l Hne. simpl. now rewrite lookup_insert_ne.
  - intros s. destruct (STYX_GLOBAL_RUNNER s) as [r|] eqn:E.
    + exists r, s. split; now apply getGlobalRunner_set.
    + do 2 eexists. split; [apply (getGlobalRunner_unset _ E) |].
      now apply getGlobalRunner_set.
Qed.

Lemma getGlobalRunner_lazy_idempotent_witness :
  STYX_GLOBAL_RUNNER sample_state = None /\
  exists r s',
    getGlobalRunner sample_state = Some (r, s') /\
    heap sample_state !! r = None /\
    dryRunnerAt s' r = Some DryRunner_init /\
    STYX_GLOBAL_RUNNER s' = Some r /\
    (forall l, l <> r -> heap s' !! l = heap sample_state !! l).
Proof.
  split; [reflexivity |].
  exact (proj1 getGlobalRunner_lazy_idempotent sample_state eq_refl).
Defined.

(** C3.  After [setGlobalRunner(r)], from any state, [getGlobalRunner()]
    returns the reference [r] itself; the two calls allocate nothing and
    change no object. *)
Theorem set_then_get_global_runner s r :
  (setGlobalRunner r ;; getGlobalRunner) s
  = Some (r, {| heap := heap s; STYX_GLOBAL_RUNNER := Some r |}).
Proof.
  unfold bind, setGlobalRunner, writeGlobal.
  now apply getGlobalRunner_set.
Qed.

(** On the sample state, whose store uses the locations 1 to 6, the
    first call allocates location 7. *)
Example getGlobalRunner_sample :
  fst <$> getGlobalRunner sample_state = Some 7%positive.
Proof. vm_compute. reflexivity. Qed.

End GlobalRunner.


(** * Further properties *)

(** ** The rendering of arguments *)

Section ArgumentRendering.

Implicit Types (arg a b pre post : string) (c : ascii).

(** The replacement the rendering applies. *)
Local Abbreviation escape :=
  (JS.replace_global JS.dquote (String JS.backslash (JS.str JS.dquote))).

Lemma escape_cons c arg :
  escape (String c arg)
  = if Ascii.eqb c JS.dquote
    then String JS.backslash (String JS.dquote (escape arg))
    else String c (escape arg).
Proof. reflexivity. Qed.

(** The escaped text never begins with a double quote. *)
Lemma escape_head arg post : escape arg <> String JS.dquote post.
Proof.
  destruct arg as [|c arg]; [discriminate |].
  rewrite escape_cons. destruct (Ascii.eqb_spec c JS.dquote) as [->|Hne].
  - discriminate.
  - intros [= ? _]. contradiction.
Qed.

Lemma escape_inj a b : escape a = escape b -> a = b.
Proof.
  revert b. induction a as [|x a IH]; intros [|y b].
  - reflexivity.
  - rewrite escape_cons. simpl. destruct (Ascii.eqb y JS.dquote); discriminate.
  - rewrite escape_cons. simpl. destruct (Ascii.eqb x JS.dquote); discriminate.
  - rewrite !escape_cons.
    destruct (Ascii.eqb_spec x JS.dquote) as [->|Hx];
      destruct (Ascii.eqb_spec y JS.dquote) as [->|Hy].
    + intros [= H]. now rewrite (IH _ H).
    + intros [= <- H]. symmetry in H. now apply escape_head in H.
    + intros [= -> H]. now apply escape_head in H.
    + intros [= -> H]. now rewrite (IH _ H).
Qed.

Lemma chars_inj a b : chars a = chars b -> a = b.
Proof.
  unfold chars. intros H.
  rewrite <- (string_of_list_ascii_of_string a),
          <- (string_of_list_ascii_of_string b).
  now rewrite H.
Qed.

Lemma append_inv_tail a b post : a ++ post = b ++ post -> a = b.
Proof.
  intros H. apply chars_inj. apply (f_equal chars) in H.
  rewrite !chars_app in H. now apply app_inv_tail in H.
Qed.

(** The test of [quoteArg], read on the characters. *)
Lemma quoteArg_test arg :
  JS.includes arg (JS.str JS.space)
  || JS.includes arg (JS.str JS.dquote)
  || JS.includes arg (JS.str JS.squote) = false ->
  ~ In JS.dquote (chars arg).
Proof.
  intros H Hin. apply includes_str in Hin. rewrite Hin in H.
  now rewrite orb_true_r in H.
Qed.

(** X1.  The rendering of one argument loses nothing: two arguments with
    the same rendering are the same argument. *)
Theorem quoteArg_injective a b : quoteArg a = quoteArg b -> a = b.
Proof.
  unfold quoteArg.
  destruct (JS.includes a (JS.str JS.space) || JS.includes a (JS.str JS.dquote)
            || JS.includes a (JS.str JS.squote)) eqn:Ea;
    destruct (JS.includes b (JS.str JS.space) || JS.includes b (JS.str JS.dquote)
              || JS.includes b (JS.str JS.squote)) eqn:Eb;
    unfold JS.str.
  - rewrite !append_cons, !append_nil. intros [= H].
    apply append_inv_tail in H. now apply escape_inj.
  - rewrite append_cons, append_nil. intros <-.
    exfalso. apply (quoteArg_test _ Eb). simpl. now left.
  - rewrite append_cons, append_nil. intros ->.
    exfalso. apply (quoteArg_test _ Ea). simpl. now left.
  - auto.
Qed.

Lemma quoteArg_injective_witness :
  quoteArg "a b" = quoteArg ("a" ++ JS.str JS.space ++ "b") /\
  "a b" = "a" ++ JS.str JS.space ++ "b".
Proof.
  split; [reflexivity |].
  exact (quoteArg_injective "a b" ("a" ++ JS.str JS.space ++ "b") eq_refl).
Defined.

(** Inside the escaped text every double quote comes right after a
    backslash. *)
Lemma escape_dquote_preceded arg (front back : list ascii) :
  chars (escape arg) = (front ++ JS.dquote :: back)%list ->
  exists front', front = (front' ++ [JS.backslash])%list.
Proof.
  revert front. induction arg as [|c arg IH]; intros front.
  - destruct front; discriminate.
  - rewrite escape_cons.
    destruct (Ascii.eqb_spec c JS.dquote) as [->|Hne].
    + destruct front as [|x [|y front]].
      * discriminate.
      * intros [= <- _]. now exists [].
      * intros [= <- <- H]. destruct (IH _ H) as [front' ->].
        now exists (JS.backslash :: JS.dquote :: front').
    + destruct front as [|x front].
      * intros [= ? _]. contradiction.
      * intros [= -> H]. destruct (IH _ H) as [front' ->].
        now exists (x :: front').
Qed.

(** X2.  An argument with a space or a quote in it is rendered between
    two double quotes, and every double quote between them comes right
    after a backslash. *)
Theorem quoteArg_inner_dquotes_escaped arg :
  has_space_or_quote arg ->
  exists inner,
    quoteArg arg = JS.str JS.dquote ++ inner ++ JS.str JS.dquote /\
    forall front back : list ascii,
      chars inner = (front ++ JS.dquote :: back)%list ->
      exists front', front = (front' ++ [JS.backslash])%list.
Proof.
  intros H. exists (escape arg). split.
  - rewrite replace_global_escape. now apply quoteArg_quoted.
  - intros front back. apply escape_dquote_preceded.
Qed.

Lemma quoteArg_inner_dquotes_escaped_witness :
  has_space_or_quote ("say " ++ JS.str JS.dquote ++ "hi" ++ JS.str JS.dquote) /\
  exists inner,
    quoteArg ("say " ++ JS.str JS.dquote ++ "hi" ++ JS.str JS.dquote)
    = JS.str JS.dquote ++ inner ++ JS.str JS.dquote /\
    forall front back : list ascii,
      chars inner = (front ++ JS.dquote :: back)%list ->
      exists front', front = (front' ++ [JS.backslash])%list.
Proof.
  assert (has_space_or_quote
            ("say " ++ JS.str JS.dquote ++ "hi" ++ JS.str JS.dquote)) as H.
  { exists JS.space. split; [simpl; auto | auto]. }
  split; [exact H |].
  exact (quoteArg_inner_dquotes_escaped _ H).
Defined.

(** X3.  No character but the double quote is changed by the escaping:
    a backslash, like any other character, is copied as it is, wherever
    it stands. *)
Theorem escape_only_dquotes c pre post :
  c <> JS.dquote ->
  escape (pre ++ JS.str c ++ post) = escape pre ++ JS.str c ++ escape post.
Proof.
  intros Hne. rewrite !replace_global_app. f_equal. f_equal.
  unfold JS.str. rewrite escape_cons.
  now destruct (Ascii.eqb_spec c JS.dquote).
Qed.

Lemma escape_only_dquotes_witness :
  JS.backslash <> JS.dquote /\
  escape ("C:" ++ JS.str JS.backslash ++ "dir")
  = escape "C:" ++ JS.str JS.backslash ++ escape "dir".
Proof.
  assert (JS.backslash <> JS.dquote) as H by discriminate.
  split; [exact H |].
  exact (escape_only_dquotes JS.backslash "C:" "dir" H).
Defined.

End ArgumentRendering.

(** ** The shape of the message *)

Section MessageShape.

Implicit Types (code : option Z) (args : option (list string))
               (extra : option string).

Lemma append_nil_r (s : string) : s ++ "" = s.
Proof.
  induction s as [|a s IH]; [reflexivity |]. now rewrite append_cons, IH.
Qed.

Lemma append_neq_self (s t : string) : t <> "" -> s ++ t <> s.
Proof.
  intros Ht. induction s as [|a s IH].
  - now rewrite append_nil.
  - rewrite append_cons. intros [= H]. now apply IH.
Qed.

(** X4.  An argument is rendered as the empty text only when it is the
    empty string, and then it leaves no trace: the message for the empty
    vector and the message for the vector holding one empty string are
    the same. *)
Theorem empty_argument_invisible :
  (forall arg : string, quoteArg arg = "" <-> arg = "")
  /\ (forall code extra,
         message (StyxRuntimeError_new code (Some []) extra)
         = message (StyxRuntimeError_new code (Some [""]) extra)).
Proof.
  split; [| reflexivity].
  intros arg. split; [| now intros ->].
  unfold quoteArg.
  destruct (JS.includes arg (JS.str JS.space)
            || JS.includes arg (JS.str JS.dquote)
            || JS.includes arg (JS.str JS.squote)); [| auto].
  unfold JS.str. rewrite append_cons. discriminate.
Qed.

Lemma empty_argument_invisible_witness :
  quoteArg "" = "" /\ "" = "".
Proof.
  split; [reflexivity |].
  exact (proj1 (proj1 empty_argument_invisible "") eq_refl).
Defined.

Lemma join_app (sep : string) (xs ys : list string) :
  xs <> [] -> ys <> [] ->
  JS.join sep (xs ++ ys) = JS.join sep xs ++ sep ++ JS.join sep ys.
Proof.
  intros Hx Hy. induction xs as [|x xs IH]; [contradiction |].
  destruct xs as [|x' xs].
  - destruct ys as [|y ys]; [contradiction | reflexivity].
  - change (JS.join sep ((x :: x' :: xs) ++ ys))
      with (x ++ sep ++ JS.join sep ((x' :: xs) ++ ys)).
    rewrite IH by discriminate.
    change (JS.join sep (x :: x' :: xs))
      with (x ++ sep ++ JS.join sep (x' :: xs)).
    now rewrite !string_app_assoc.
Qed.

(** X5.  The arguments line is built piece by piece: for a vector cut in
    two parts, neither of them empty, it is the line of the first part,
    one space, and the line of the second part. *)
Theorem arguments_line_app (xs ys : list string) :
  xs <> [] -> ys <> [] ->
  JS.join " " (map quoteArg (xs ++ ys))
  = JS.join " " (map quoteArg xs) ++ " " ++ JS.join " " (map quoteArg ys).
Proof.
  intros Hx Hy. rewrite map_app. apply join_app.
  - now destruct xs.
  - now destruct ys.
Qed.

Lemma arguments_line_app_witness :
  ["tool"; "--flag"] <> [] /\ ["a b"] <> [] /\
  JS.join " " (map quoteArg (["tool"; "--flag"] ++ ["a b"]))
  = JS.join " " (map quoteArg ["tool"; "--flag"])
    ++ " " ++ JS.join " " (map quoteArg ["a b"]).
Proof.
  assert (["tool"; "--flag"] <> []) as Hx by discriminate.
  assert (["a b"] <> []) as Hy by discriminate.
  split; [exact Hx | split; [exact Hy |]].
  exact (arguments_line_app ["tool"; "--flag"] ["a b"] Hx Hy).
Defined.

(** The message is the heading followed by a text that depends on the
    argument vector and the extra text only, and that is empty exactly
    when both are absent. *)
Lemma buildMessage_heading args extra :
  exists rest : string,
    (forall code,
        buildMessage code args extra = buildMessage code None None ++ rest)
    /\ (rest = "" <-> args = None /\ extra = None).
Proof.
  destruct args as [xs|].
  - eexists. split; [intros code; apply buildMessage_args |].
    unfold JS.str. rewrite append_cons. split; [discriminate | intros [[=] _]].
  - destruct extra as [e|].
    + exists (JS.str JS.newline ++ e). split; [reflexivity |].
      unfold JS.str. rewrite append_cons. split; [discriminate | intros [_ [=]]].
    + exists "". split; [| tauto].
      intros code. now rewrite append_nil_r.
Qed.

(** X6.  The message is the bare heading exactly when neither an argument
    vector nor an extra text is given: an empty vector or an empty extra
    text still adds a line. *)
Theorem message_is_heading_iff code args extra :
  message (StyxRuntimeError_new code args extra)
  = message (StyxRuntimeError_new code None None)
  <-> args = None /\ extra = None.
Proof.
  cbn [message StyxRuntimeError_new].
  destruct (buildMessage_heading args extra) as (rest & Hrest & Hnil).
  rewrite Hrest. split.
  - intros H. apply Hnil.
    destruct rest as [|a rest]; [reflexivity |].
    exfalso. revert H. now apply append_neq_self.
  - intros H. apply Hnil in H. subst rest. apply append_nil_r.
Qed.

Lemma message_is_heading_iff_witness :
  ((@None (list string) = None /\ @None string = None) /\
   message (StyxRuntimeError_new (Some 2%Z) None None)
   = message (StyxRuntimeError_new (Some 2%Z) None None))
  /\ (message (StyxRuntimeError_new None (Some []) None) = "Command failed."
      -> False).
Proof.
  split.
  - split; [split; reflexivity |].
    exact (proj2 (message_is_heading_iff (Some 2%Z) None None)
             (conj eq_refl eq_refl)).
  - intros H.
    destruct (proj1 (message_is_heading_iff None (Some []) None) H) as [E _].
    discriminate E.
Defined.

(** The decimal numeral of a return code determines it. *)
Lemma number_toString_inj (n n' : Z) :
  JS.number_toString n = JS.number_toString n' -> n = n'.
Proof.
  assert (forall z : Z, NilZero.int_of_string (JS.number_toString z)
                        = Some (Z.to_int z)) as Hparse.
  { intros z. unfold JS.number_toString. apply NilZero.isi.
    - intros H. pose proof (f_equal Z.of_int H) as H'.
      rewrite DecimalZ.of_to in H'. subst z. vm_compute in H. discriminate H.
    - intros H. pose proof (f_equal Z.of_int H) as H'.
      rewrite DecimalZ.of_to in H'. subst z. vm_compute in H. discriminate H. }
  intros H. apply (f_equal NilZero.int_of_string) in H.
  rewrite !Hparse in H. injection H as H. now apply DecimalZ.to_int_inj.
Qed.

(** X7.  The message tells the return code: with the same argument vector
    and extra text, two constructions whose return codes are safe integers
    (or absent) give the same message only for the same return code (or
    for none in both). *)
Theorem message_determines_code (code code' : option Z) args extra :
  safe_code code -> safe_code code' ->
  message (StyxRuntimeError_new code args extra)
  = message (StyxRuntimeError_new code' args extra) ->
  code = code'.
Proof.
  intros _ _. cbn [message StyxRuntimeError_new].
  destruct (buildMessage_heading args extra) as (rest & Hrest & _).
  rewrite !Hrest. intros H%append_inv_tail. revert H.
  unfold buildMessage. destruct code as [n|], code' as [n'|].
  - intros H%String.app_inj%append_inv_tail.
    now rewrite (number_toString_inj _ _ H).
  - rewrite !append_cons. discriminate.
  - rewrite !append_cons. discriminate.
  - reflexivity.
Qed.

Lemma message_determines_code_witness :
  safe_code (Some 137%Z) /\ safe_code (Some (128 + 9)%Z) /\
  message (StyxRuntimeError_new (Some 137%Z) (Some ["tool"]) None)
  = message (StyxRuntimeError_new (Some (128 + 9)%Z) (Some ["tool"]) None)
  /\ Some 137%Z = Some (128 + 9)%Z.
Proof.
  assert (safe_code (Some 137%Z)) as H1 by reflexivity.
  assert (safe_code (Some (128 + 9)%Z)) as H2 by reflexivity.
  split; [exact H1 | split; [exact H2 | split; [reflexivity |]]].
  exact (message_determines_code (Some 137%Z) (Some (128 + 9)%Z)
           (Some ["tool"]) None H1 H2 eq_refl).
Defined.

End MessageShape.

(** ** Sequences of calls on a dry runner *)

Section DryRunnerSequences.

Implicit Types (s : State) (this l x m cargs : loc) (d : DryRunner).

Lemma bind_Some {A B} (c : M A) (k : A -> M B) s a s1 :
  c s = Some (a, s1) -> bind c k s = k a s1.
Proof. intros H. unfold bind. now rewrite H. Qed.

Lemma dryRunnerAt_written (h : gmap loc object) (g : option loc) this d :
  dryRunnerAt {| heap := <[this := ODryRunner d]> h;
                 STYX_GLOBAL_RUNNER := g |} this = Some d.
Proof. unfold dryRunnerAt. simpl. now rewrite lookup_insert_eq. Qed.

(** Stepping through a sequence: each writing method is replaced by its
    effect, and two writes of the receiver are merged. *)
Ltac step_dry :=
  repeat first
    [ erewrite bind_Some by (first
        [ apply startExecution_eq | apply params_eq | apply run_eq ];
        first [ eassumption | apply dryRunnerAt_written ])
    | erewrite startExecution_eq by
        first [ eassumption | apply dryRunnerAt_written ]
    | erewrite params_eq by first [ eassumption | apply dryRunnerAt_written ]
    | erewrite run_eq by first [ eassumption | apply dryRunnerAt_written ] ];
  cbn [heap STYX_GLOBAL_RUNNER lastCargs lastMetadata lastParams];
  rewrite ?insert_insert_eq.

(** X8.  Each recording method overwrites what the same method recorded
    before: two calls in a row leave the state the later call alone would
    leave, and return what it would return. *)
Theorem dry_runner_last_write_wins s this d :
  dryRunnerAt s this = Some d ->
  (forall m1 m2,
      (startExecution this m1 ;; startExecution this m2) s
      = startExecution this m2 s)
  /\ (forall x1 x2,
      (params this x1 ;; params this x2) s = params this x2 s)
  /\ (forall c1 c2 (h1 h2 h3 h4 : option handler),
      (run this c1 h1 h2 ;; run this c2 h3 h4) s = run this c2 h3 h4 s).
Proof.
  intros Hd. split; [| split]; intros; step_dry; reflexivity.
Qed.

Lemma dry_runner_last_write_wins_witness :
  dryRunnerAt sample_state 1%positive = Some DryRunner_init /\
  (run 1%positive 3%positive None None ;;
   run 1%positive 4%positive None None) sample_state
  = run 1%positive 4%positive None None sample_state.
Proof.
  assert (dryRunnerAt sample_state 1%positive = Some DryRunner_init) as H
      by (vm_compute; reflexivity).
  split; [exact H |].
  exact (proj2 (proj2 (dry_runner_last_write_wins sample_state 1%positive
                         DryRunner_init H))
           3%positive 4%positive None None None None).
Defined.

(** X9.  The three recording methods do not depend on the order in which
    they are called: any two of them, called in either order, return the
    same values and leave the same state. *)
Theorem dry_runner_methods_commute s this d :
  dryRunnerAt s this = Some d ->
  (forall m x,
      (let* e := startExecution this m in
       let* r := params this x in ret (e, r)) s
      = (let* r := params this x in
         let* e := startExecution this m in ret (e, r)) s)
  /\ (forall m cargs (h1 h2 : option handler),
      (let* e := startExecution this m in
       run this cargs h1 h2 ;; ret e) s
      = (run this cargs h1 h2 ;; startExecution this m) s)
  /\ (forall x cargs (h1 h2 : option handler),
      (let* r := params this x in
       run this cargs h1 h2 ;; ret r) s
      = (run this cargs h1 h2 ;; params this x) s).
Proof.
  intros Hd. split; [| split]; intros; step_dry; reflexivity.
Qed.

Lemma dry_runner_methods_commute_witness :
  dryRunnerAt sample_state 1%positive = Some DryRunner_init /\
  (let* r := params 1%positive 4%positive in
   run 1%positive 3%positive None None ;; ret r) sample_state
  = (run 1%positive 3%positive None None ;;
     params 1%positive 4%positive) sample_state.
Proof.
  assert (dryRunnerAt sample_state 1%positive = Some DryRunner_init) as H
      by (vm_compute; reflexivity).
  split; [exact H |].
  exact (proj2 (proj2 (dry_runner_methods_commute sample_state 1%positive
                         DryRunner_init H))
           4%positive 3%positive None None).
Defined.

(** X10.  A whole call of a wrapper on a dry runner, in the order the
    interface documents ([startExecution], [inputFile], [outputFile],
    [params], [run]), succeeds; the paths and the parameters come back as
    given, and afterwards the runner holds the metadata, the parameters
    and the command of this call, every other object being as before. *)
Theorem dry_runner_wrapper_call s this d m (p q : string)
    (resolveParent mutable optional : option bool) x cargs
    (onStdout onStderr : option handler) :
  dryRunnerAt s this = Some d ->
  exists s',
    (let* e := startExecution this m in
     let* p' := inputFile e p resolveParent mutable in
     let* q' := outputFile e q optional in
     let* x' := params e x in
     run e cargs onStdout onStderr ;;
     ret (e, p', q', x')) s
    = Some ((this, p, q, x), s')
    /\ dryRunnerAt s' this
       = Some {| lastCargs := Some cargs;
                 lastMetadata := Some m;
                 lastParams := Some x |}
    /\ (forall l, l <> this -> heap s' !! l = heap s !! l)
    /\ STYX_GLOBAL_RUNNER s' = STYX_GLOBAL_RUNNER s.
Proof.
  intros Hd. eexists. split; [| split; [| split]].
  - step_dry. unfold inputFile, outputFile, ret, bind. step_dry. reflexivity.
  - apply dryRunnerAt_written.
  - intros l Hne. simpl. now rewrite lookup_insert_ne.
  - reflexivity.
Qed.

Lemma dry_runner_wrapper_call_witness :
  dryRunnerAt sample_state 1%positive = Some DryRunner_init /\
  exists s',
    (let* e := startExecution 1%positive 2%positive in
     let* p' := inputFile e "/data/t1.nii" None (Some true) in
     let* q' := outputFile e "out/brain.nii" None in
     let* x' := params e 4%positive in
     run e 3%positive None None ;;
     ret (e, p', q', x')) sample_state
    = Some ((1%positive, "/data/t1.nii", "out/brain.nii", 4%positive), s')
    /\ dryRunnerAt s' 1%positive
       = Some {| lastCargs := Some 3%positive;
                 lastMetadata := Some 2%positive;
                 lastParams := Some 4%positive |}
    /\ (forall l, l <> 1%positive -> heap s' !! l = heap sample_state !! l)
    /\ STYX_GLOBAL_RUNNER s' = STYX_GLOBAL_RUNNER sample_state.
Proof.
  assert (dryRunnerAt sample_state 1%positive = Some DryRunner_init) as H
      by (vm_compute; reflexivity).
  split; [exact H |].
  exact (dry_runner_wrapper_call sample_state 1%positive DryRunner_init
           2%positive "/data/t1.nii" "out/brain.nii" None (Some true) None
           4%positive 3%positive None None H).
Defined.

End DryRunnerSequences.

(** ** What the dry runner and the global runner never do *)

Section Invariants.

Implicit Types (s : State) (this l r x m cargs : loc) (d : DryRunner).

Lemma dom_written (h : gmap loc object) this (o o' : object) :
  h !! this = Some o -> dom (<[this := o']> h) = dom h.
Proof.
  intros H. apply dom_insert_lookup_L. eauto.
Qed.

Lemma dryRunnerAt_written_iff (h : gmap loc object) (g g' : option loc)
    this d d' l :
  h !! this = Some (ODryRunner d) ->
  is_Some (dryRunnerAt {| heap := <[this := ODryRunner d']> h;
                          STYX_GLOBAL_RUNNER := g |} l)
  <-> is_Some (dryRunnerAt {| heap := h; STYX_GLOBAL_RUNNER := g' |} l).
Proof.
  intros H. unfold dryRunnerAt. simpl.
  destruct (decide (l = this)) as [->|Hne].
  - rewrite lookup_insert_eq, H. split; eauto.
  - now rewrite lookup_insert_ne.
Qed.

(** X11.  The recording methods of a dry runner create no object, remove
    none, keep the locations that hold dry runners, and leave the global
    runner variable alone. *)
Theorem dry_runner_methods_preserve s this :
  (forall m e s',
      startExecution this m s = Some (e, s') ->
      dom (heap s') = dom (heap s) /\
      STYX_GLOBAL_RUNNER s' = STYX_GLOBAL_RUNNER s /\
      forall l, is_Some (dryRunnerAt s' l) <-> is_Some (dryRunnerAt s l))
  /\ (forall x r s',
      params this x s = Some (r, s') ->
      dom (heap s') = dom (heap s) /\
      STYX_GLOBAL_RUNNER s' = STYX_GLOBAL_RUNNER s /\
      forall l, is_Some (dryRunnerAt s' l) <-> is_Some (dryRunnerAt s l))
  /\ (forall cargs (h1 h2 : option handler) u s',
      run this cargs h1 h2 s = Some (u, s') ->
      dom (heap s') = dom (heap s) /\
      STYX_GLOBAL_RUNNER s' = STYX_GLOBAL_RUNNER s /\
      forall l, is_Some (dryRunnerAt s' l) <-> is_Some (dryRunnerAt s l)).
Proof.
  split; [| split].
  - intros m e s' H. destruct (startExecution_inv _ _ _ _ _ H) as [d Hd].
    rewrite (startExecution_eq _ _ _ _ Hd) in H. simplify_eq/=.
    apply dryRunnerAt_Some in Hd. split; [now apply (dom_written _ _ _ _ Hd) |].
    split; [reflexivity |]. intros l. destruct s.
    now apply dryRunnerAt_written_iff with (d := d).
  - intros x r s' H. destruct (params_inv _ _ _ _ _ H) as [d Hd].
    rewrite (params_eq _ _ _ _ Hd) in H. simplify_eq/=.
    apply dryRunnerAt_Some in Hd. split; [now apply (dom_written _ _ _ _ Hd) |].
    split; [reflexivity |]. intros l. destruct s.
    now apply dryRunnerAt_written_iff with (d := d).
  - intros cargs h1 h2 u s' H. destruct (run_inv _ _ _ _ _ _ _ H) as [d Hd].
    rewrite (run_eq _ _ _ _ h1 h2 Hd) in H. simplify_eq/=.
    apply dryRunnerAt_Some in Hd. split; [now apply (dom_written _ _ _ _ Hd) |].
    split; [reflexivity |]. intros l. destruct s.
    now apply dryRunnerAt_written_iff with (d := d).
Qed.

Lemma dry_runner_methods_preserve_witness :
  let s' := {| heap := <[5%positive := ODryRunner
                                         {| lastCargs := Some 3%positive;
                                            lastMetadata := None;
                                            lastParams := None |}]>
                         (heap sample_state);
               STYX_GLOBAL_RUNNER := None |} in
  run 5%positive 3%positive None None sample_state = Some (tt, s') /\
  dom (heap s') = dom (heap sample_state) /\
  STYX_GLOBAL_RUNNER s' = STYX_GLOBAL_RUNNER sample_state.
Proof.
  intros s'.
  assert (run 5%positive 3%positive None None sample_state = Some (tt, s'))
    as H by (vm_compute; reflexivity).
  split; [exact H |].
  destruct (proj2 (proj2 (dry_runner_methods_preserve sample_state 5%positive))
              3%positive None None tt s' H) as (Hdom & Hg & _).
  split; [exact Hdom | exact Hg].
Defined.

(** X12.  Two constructions of a dry runner give two different objects,
    at locations that held nothing, each with its three members [null];
    every object that existed is kept. *)
Theorem DryRunner_new_twice s :
  exists a b s',
    (let* a := DryRunner_new in
     let* b := DryRunner_new in ret (a, b)) s = Some ((a, b), s')
    /\ a <> b
    /\ heap s !! a = None /\ heap s !! b = None
    /\ dryRunnerAt s' a = Some DryRunner_init
    /\ dryRunnerAt s' b = Some DryRunner_init
    /\ (forall l o, heap s !! l = Some o -> heap s' !! l = Some o).
Proof.
  set (a := fresh (dom (heap s))).
  set (h1 := <[a := ODryRunner DryRunner_init]> (heap s)).
  set (b := fresh (dom h1)).
  assert (heap s !! a = None) as Ha by apply fresh_unused.
  assert (h1 !! b = None) as Hb by apply not_elem_of_dom, is_fresh.
  assert (a <> b) as Hne.
  { intros E. rewrite <- E in Hb. unfold h1 in Hb.
    rewrite lookup_insert_eq in Hb. discriminate. }
  assert (heap s !! b = None) as Hb'.
  { unfold h1 in Hb. rewrite lookup_insert_ne in Hb by exact Hne. exact Hb. }
  exists a, b. eexists. split; [reflexivity |].
  split; [exact Hne |]. split; [exact Ha |]. split; [exact Hb' |].
  split.
  { unfold dryRunnerAt. simpl. fold a. fold h1. fold b.
    rewrite lookup_insert_ne by auto. unfold h1.
    now rewrite lookup_insert_eq. }
  split.
  { unfold dryRunnerAt. simpl. fold a. fold h1. fold b.
    now rewrite lookup_insert_eq. }
  intros l o Hl. simpl. fold a. fold h1. fold b.
  rewrite lookup_insert_ne by (intros E; rewrite <- E in Hl; congruence).
  unfold h1.
  rewrite lookup_insert_ne by (intros E; rewrite <- E in Hl; congruence).
  exact Hl.
Qed.

Lemma DryRunner_new_twice_witness :
  exists a b s',
    (let* a := DryRunner_new in
     let* b := DryRunner_new in ret (a, b)) sample_state = Some ((a, b), s')
    /\ a <> b
    /\ heap s' !! 2%positive = Some (OMetadata sample_metadata).
Proof.
  destruct (DryRunner_new_twice sample_state)
    as (a & b & s' & H & Hne & _ & _ & _ & _ & Hkeep).
  exists a, b, s'. split; [exact H |]. split; [exact Hne |].
  apply Hkeep. vm_compute. reflexivity.
Defined.

(** X13.  [getGlobalRunner()] never fails; the runner it returns is the
    one the variable holds afterwards; no object that existed is changed;
    and when a runner was set it is returned with the state untouched,
    whatever kind of object it refers to. *)
Theorem getGlobalRunner_total s :
  exists r s',
    getGlobalRunner s = Some (r, s')
    /\ STYX_GLOBAL_RUNNER s' = Some r
    /\ (forall l o, heap s !! l = Some o -> heap s' !! l = Some o)
    /\ (forall r0, STYX_GLOBAL_RUNNER s = Some r0 -> r = r0 /\ s' = s).
Proof.
  destruct (STYX_GLOBAL_RUNNER s) as [r0|] eqn:E.
  - exists r0, s. split; [now apply getGlobalRunner_set |].
    split; [exact E |]. split; [auto |]. intros r1 [= <-]. auto.
  - do 2 eexists. split; [now apply getGlobalRunner_unset |].
    split; [reflexivity |]. split; [| discriminate].
    intros l o Hl. simpl. rewrite lookup_insert_ne; [exact Hl |].
    intros <-. rewrite fresh_unused in Hl. discriminate.
Qed.

Lemma getGlobalRunner_total_witness :
  let s := {| heap := heap sample_state;
              STYX_GLOBAL_RUNNER := Some 4%positive |} in
  exists r s',
    getGlobalRunner s = Some (r, s') /\ r = 4%positive /\ s' = s
    /\ heap s' !! 2%positive = Some (OMetadata sample_metadata).
Proof.
  intros s.
  destruct (getGlobalRunner_total s) as (r & s' & H & _ & Hkeep & Hset).
  exists r, s'. split; [exact H |].
  destruct (Hset 4%positive eq_refl) as [Hr Hs].
  split; [exact Hr | split; [exact Hs |]].
  apply Hkeep. vm_compute. reflexivity.
Defined.

(** X14.  Only the last [setGlobalRunner] counts: after two of them
    [getGlobalRunner()] returns the runner of the second, and nothing was
    allocated or changed in the store. *)
Theorem setGlobalRunner_last_wins s r1 r2 :
  (setGlobalRunner r1 ;; setGlobalRunner r2 ;; getGlobalRunner) s
  = Some (r2, {| heap := heap s; STYX_GLOBAL_RUNNER := Some r2 |}).
Proof.
  unfold bind, setGlobalRunner, writeGlobal. cbn [heap].
  now apply getGlobalRunner_set.
Qed.

(** X15.  The default runner can be used at once and is shared: with the
    variable still [null], [getGlobalRunner()] followed by
    [startExecution(m)] on its result succeeds and returns that same
    object, and a later [getGlobalRunner()] returns it again, with [m] as
    its last metadata. *)
Theorem default_runner_usable s m :
  STYX_GLOBAL_RUNNER s = None ->
  exists r s',
    (let* r := getGlobalRunner in
     let* e := startExecution r m in ret (r, e)) s = Some ((r, r), s')
    /\ heap s !! r = None
    /\ getGlobalRunner s' = Some (r, s')
    /\ dryRunnerAt s' r
       = Some {| lastCargs := None; lastMetadata := Some m; lastParams := None |}.
Proof.
  intros H. do 2 eexists. split; [| split; [| split]].
  - rewrite (bind_Some _ _ _ _ _ (getGlobalRunner_unset _ H)).
    erewrite bind_Some
      by (apply startExecution_eq, dryRunnerAt_written). reflexivity.
  - apply fresh_unused.
  - now apply getGlobalRunner_set.
  - apply dryRunnerAt_written.
Qed.

Lemma default_runner_usable_witness :
  STYX_GLOBAL_RUNNER sample_state = None /\
  exists r s',
    (let* r := getGlobalRunner in
     let* e := startExecution r 2%positive in ret (r, e)) sample_state
    = Some ((r, r), s')
    /\ heap sample_state !! r = None
    /\ getGlobalRunner s' = Some (r, s')
    /\ dryRunnerAt s' r
       = Some {| lastCargs := None; lastMetadata := Some 2%positive;
                 lastParams := None |}.
Proof.
  split; [reflexivity |].
  exact (default_runner_usable sample_state 2%positive eq_refl).
Defined.

(** X16.  Replacing the global runner does not reach an execution that
    was started before: [run] on it still succeeds and records its
    command next to the metadata it was started with, while
    [getGlobalRunner()] now returns the new runner. *)
Theorem setGlobalRunner_keeps_executions s r0 d m r' cargs
    (onStdout onStderr : option handler) :
  dryRunnerAt s r0 = Some d ->
  exists s',
    (let* e := startExecution r0 m in
     setGlobalRunner r' ;;
     run e cargs onStdout onStderr ;;
     let* g := getGlobalRunner in ret (e, g)) s = Some ((r0, r'), s')
    /\ dryRunnerAt s' r0
       = Some {| lastCargs := Some cargs;
                 lastMetadata := Some m;
                 lastParams := lastParams d |}
    /\ STYX_GLOBAL_RUNNER s' = Some r'.
Proof.
  intros Hd. eexists. split; [| split].
  - rewrite (bind_Some _ _ _ _ _ (startExecution_eq _ _ _ _ Hd)).
    unfold setGlobalRunner, writeGlobal.
    erewrite bind_Some by reflexivity. cbn [heap STYX_GLOBAL_RUNNER].
    erewrite bind_Some by (apply run_eq, dryRunnerAt_written).
    cbn [heap STYX_GLOBAL_RUNNER lastMetadata lastParams].
    erewrite bind_Some by (now apply getGlobalRunner_set).
    rewrite insert_insert_eq. reflexivity.
  - apply dryRunnerAt_written.
  - reflexivity.
Qed.

Lemma setGlobalRunner_keeps_executions_witness :
  dryRunnerAt sample_state 1%positive = Some DryRunner_init /\
  exists s',
    (let* e := startExecution 1%positive 2%positive in
     setGlobalRunner 5%positive ;;
     run e 3%positive None None ;;
     let* g := getGlobalRunner in ret (e, g)) sample_state
    = Some ((1%positive, 5%positive), s')
    /\ dryRunnerAt s' 1%positive
       = Some {| lastCargs := Some 3%positive;
                 lastMetadata := Some 2%positive;
                 lastParams := lastParams DryRunner_init |}
    /\ STYX_GLOBAL_RUNNER s' = Some 5%positive.
Proof.
  assert (dryRunnerAt sample_state 1%positive = Some DryRunner_init) as H
      by (vm_compute; reflexivity).
  split; [exact H |].
  exact (setGlobalRunner_keeps_executions sample_state 1%positive
           DryRunner_init 2%positive 5%positive 3%positive None None H).
Defined.

End Invariants.
